(** * ec2_healthcheck: the polling loop and the reachability rule

    A shallow embedding of [src/cloud/amazon/ec2_healthcheck.py]:
    the class [EC2HealthCheck] (methods [check_health] and
    [_is_instance_reachable]) and the entry point [main].

    Python exceptions are modelled by an outcome type, the calls the
    module makes to the outside world (status queries, [time.sleep]) are
    recorded, in order, in a trace that is threaded through a small state
    and exception monad. What the outside world answers (boto's
    connections and status reports, the lengths [time.sleep] accepts) is
    a parameter, [World]. *)

From Stdlib Require Import ZArith Lia.
From stdpp Require Import gmap strings list.

Open Scope string_scope.
Open Scope list_scope.
Open Scope Z_scope.

(** ** Data: what boto returns *)

Module Boto.

(** [boto.ec2.instancestatus.Status]: a status string ([None] until one
    is reported) and a dictionary of details. *)
Record Status := mkStatus {
  status : option string;
  details : gmap string string
}.

(** [boto.ec2.instancestatus.InstanceStatus], restricted to the
    attributes the module reads. *)
Record InstanceStatus := mkInstanceStatus {
  state_name : option string;
  instance_status : Status;
  system_status : Status
}.

End Boto.
Import Boto.

(** ** Exceptions, outcomes, events *)

(** What the module hands to Ansible: [module.exit_json(changed=..,
    stdout=..)] or [module.fail_json(msg=..)]. *)
Inductive payload :=
| exit_json (changed : bool) (stdout : string)
| fail_json (msg : string).

Inductive exn :=
| PyException (msg : string)   (* raise Exception(msg) *)
| BotoError (msg : string)     (* raised by boto: connecting, status query *)
| KeyError (key : string)      (* d[key] on a dict without key *)
| SleepError (msg : string)    (* raised by time.sleep: IOError, OverflowError *)
| SystemExit (p : payload).    (* exit_json and fail_json leave through sys.exit *)

(** [SystemExit] derives from [BaseException] only: [except Exception]
    does not catch it. *)
Definition is_Exception (e : exn) : bool :=
  match e with
  | SystemExit _ => false
  | _ => true
  end.

(** [str(e)] *)
Definition str (e : exn) : string :=
  match e with
  | PyException msg => msg
  | BotoError msg => msg
  | KeyError key => "'" +:+ key +:+ "'"
  | SleepError msg => msg
  | SystemExit _ => ""
  end.

Inductive outcome (A : Type) :=
| Return (a : A)
| Raise (e : exn)
| OutOfFuel.
Arguments Return {A} a.
Arguments Raise {A} e.
Arguments OutOfFuel {A}.

(** The answer of one status query: a list of instance statuses, or a
    provider error. *)
Inductive response :=
| Statuses (l : list InstanceStatus)
| Failure (msg : string).

Inductive event :=
| Query (r : response)                                  (* conn.get_all_instance_status *)
| Evaluate (l : list InstanceStatus) (r : outcome bool) (* self._is_instance_reachable *)
| Sleep (secs : Z).                                     (* time.sleep *)

Definition is_query (e : event) : bool :=
  match e with Query _ => true | _ => false end.
Definition is_evaluate (e : event) : bool :=
  match e with Evaluate _ _ => true | _ => false end.
Definition is_sleep (e : event) : bool :=
  match e with Sleep _ => true | _ => false end.

Definition count_events (p : event -> bool) (t : list event) : nat :=
  length (List.filter p t).

Definition queries := count_events is_query.
Definition evaluations := count_events is_evaluate.
Definition sleeps := count_events is_sleep.

(** A connection answers the n-th status query about the given
    instance ids (n counted from 0 over the whole run). *)
Definition Connection := list string -> nat -> response.

Inductive connected :=
| Connected (conn : Connection)
| NoConnection
| ConnectFailure (msg : string).

(** The world outside the module: boto and the clock of the platform.

    [connect_to_region region keys] is
    [boto.ec2.connect_to_region(region, ...)], with the keys when both
    are given: a connection, [None] for a region boto does not know, or
    an exception of boto's.

    [time_sleep secs] is [None] when [time.sleep(secs)] returns, after
    [secs] seconds, and the text of the exception when it raises instead
    (IOError for a negative length or one that does not fit the
    platform's timeval, OverflowError for one that does not fit a
    float). Which lengths are accepted depends on the platform. *)
Record World := mkWorld {
  connect_to_region : string -> option (string * string) -> connected;
  time_sleep : Z -> option string
}.

(** ** The monad: a trace of events, and exceptions *)

Definition M (A : Type) : Type := list event -> outcome A * list event.

Definition ret {A} (a : A) : M A := fun t => (Return a, t).

Definition raise {A} (e : exn) : M A := fun t => (Raise e, t).

Definition bind {A B} (m : M A) (k : A -> M B) : M B :=
  fun t =>
    match m t with
    | (Return a, t') => k a t'
    | (Raise e, t') => (Raise e, t')
    | (OutOfFuel, t') => (OutOfFuel, t')
    end.

Notation "x <- m ;; k" := (bind m (fun x => k))
  (at level 100, m at next level, right associativity).
Notation "m ;;; k" := (bind m (fun _ => k))
  (at level 100, right associativity).

(** [try: body except Exception, e: handler(e)] *)
Definition try_except {A} (body : M A) (handler : exn -> M A) : M A :=
  fun t =>
    match body t with
    | (Raise e, t') => if is_Exception e then handler e t' else (Raise e, t')
    | r => r
    end.

(** [conn.get_all_instance_status(instance_ids=ids)] *)
Definition get_all_instance_status (conn : Connection) (ids : list string)
  : M (list InstanceStatus) :=
  fun t =>
    let r := conn ids (queries t) in
    match r with
    | Statuses l => (Return l, t ++ [Query r])
    | Failure msg => (Raise (BotoError msg), t ++ [Query r])
    end.

(** ** The reachability rule *)

(** [v != s] for an attribute that is [None] or a string. *)
Definition ne_str (v : option string) (s : string) : bool :=
  match v with
  | Some x => bool_decide (x ≠ s)
  | None => true
  end.

Definition _is_instance_reachable (status_list : list InstanceStatus)
  : outcome bool :=
  match status_list with
  | [] => Return false
  | st :: _ =>
      if ne_str (status (instance_status st)) "ok" then Return false
      else if ne_str (state_name st) "running" then Return false
      else
        match details (system_status st) !! "reachability" with
        | None => Raise (KeyError "reachability")
        | Some r =>
            if bool_decide (r ≠ "passed") then Return false
            else Return true
        end
  end.

(** The call [self._is_instance_reachable(status)] as the loop makes
    it: the call and its result are recorded. *)
Definition call_is_instance_reachable (status_list : list InstanceStatus)
  : M bool :=
  fun t =>
    let r := _is_instance_reachable status_list in
    (r, t ++ [Evaluate status_list r]).

(** ** The polling loop *)

Section check_health.

Variable env : World.

(** [boto.ec2.connect_to_region(region, ...)] *)
Definition connect (region : string) (keys : option (string * string))
  : M (option Connection) :=
  match connect_to_region env region keys with
  | Connected conn => ret (Some conn)
  | NoConnection => ret None
  | ConnectFailure msg => raise (BotoError msg)
  end.

(** [time.sleep(secs)]: sleeps, or raises when the platform rejects the
    length. *)
Definition sleep (secs : Z) : M unit :=
  fun t =>
    match time_sleep env secs with
    | Some msg => (Raise (SleepError msg), t)
    | None => (Return tt, t ++ [Sleep secs])
    end.

(** [while (count < repeat): ...], with the last status obtained in
    [status_]. One unit of fuel is used per iteration. *)
Fixpoint while_loop (fuel : nat) (conn : Connection) (instance_id : string)
    (interval repeat count : Z) (status_ : list InstanceStatus) : M bool :=
  if count <? repeat then
    match fuel with
    | O => fun t => (OutOfFuel, t)
    | S fuel' =>
        let count := count + 1 in
        reachable <- call_is_instance_reachable status_ ;;
        if reachable : bool then ret true
        else
          sleep interval ;;;
          status_ <- get_all_instance_status conn [instance_id] ;;
          while_loop fuel' conn instance_id interval repeat count status_
    end
  else ret false.

Definition check_health_fuel (fuel : nat) (instance_id region : string)
    (interval repeat : Z) (access secret : option string) : M bool :=
  conn <- match access, secret with
          | Some a, Some s => connect region (Some (a, s))
          | _, _ => connect region None
          end ;;
  match conn with
  | None => raise (PyException "Couldn't connect to AWS. Check the region name")
  | Some conn =>
      status_ <- get_all_instance_status conn [instance_id] ;;
      let count := 0 in
      while_loop fuel conn instance_id interval repeat count status_
  end.

(** [repeat] iterations at most are needed: see [check_health_fuel_enough]. *)
Definition check_health (instance_id region : string)
    (interval repeat : Z) (access secret : option string) : M bool :=
  check_health_fuel (Z.to_nat repeat) instance_id region interval repeat
    access secret.

(** ** The entry point *)

(** [module.params] after Ansible has parsed and typed the arguments. *)
Record params := mkParams {
  p_instance_id : string;
  p_region : string;
  p_interval : Z;
  p_repeat : Z;
  p_fail_unreachable : bool;
  p_aws_access_key : option string;
  p_aws_secret_key : option string
}.

Definition module_fail_json {A} (msg : string) : M A :=
  raise (SystemExit (fail_json msg)).

Definition module_exit_json {A} (changed : bool) (stdout : string) : M A :=
  raise (SystemExit (exit_json changed stdout)).

Definition main (HAS_BOTO : bool) (p : params) : M unit :=
  (if negb HAS_BOTO then module_fail_json "boto required for this module"
   else ret tt) ;;;
  let instance_id := p_instance_id p in
  try_except
    (reachable <- check_health instance_id (p_region p) (p_interval p)
                    (p_repeat p) (p_aws_access_key p) (p_aws_secret_key p) ;;
     (if negb reachable && p_fail_unreachable p
      then module_fail_json
             ("The following instance isn't reachable: " +:+ instance_id)
      else ret tt) ;;;
     let msg := "The following instance is " in
     let msg := if reachable : bool then msg +:+ "rechable "
                else msg +:+ "unreachable " in
     module_exit_json false (msg +:+ instance_id))
    (fun e =>
       module_fail_json
         ("An error occurred while performing a health check on " +:+
          instance_id +:+ " | error: " +:+ str e)).

End check_health.

(** ** Snapshots used in the examples *)

Definition passed : gmap string string := {[ "reachability" := "passed" ]}.
Definition initializing : gmap string string :=
  {[ "reachability" := "initializing" ]}.

(** A fully healthy instance. *)
Definition healthy : InstanceStatus :=
  mkInstanceStatus (Some "running") (mkStatus (Some "ok") passed)
    (mkStatus (Some "ok") passed).

(** An instance that is still starting. *)
Definition pending : InstanceStatus :=
  mkInstanceStatus (Some "pending") (mkStatus (Some "initializing") initializing)
    (mkStatus (Some "initializing") initializing).

(** A running instance whose system status carries no details yet. *)
Definition undetailed : InstanceStatus :=
  mkInstanceStatus (Some "running") (mkStatus (Some "ok") passed)
    (mkStatus (Some "ok") ∅).

(** ** The reachability rule, as predicates on the status list *)

(** A snapshot is present and the three conditions hold. *)
Definition all_three_hold (l : list InstanceStatus) : Prop :=
  ∃ st rest, l = st :: rest ∧
    status (instance_status st) = Some "ok" ∧
    state_name st = Some "running" ∧
    details (system_status st) !! "reachability" = Some "passed".

(** A snapshot is present and one of the three fields is not as
    required: it has another value, or none at all. *)
Definition some_field_deviates (l : list InstanceStatus) : Prop :=
  ∃ st rest, l = st :: rest ∧
    (status (instance_status st) ≠ Some "ok" ∨
     state_name st ≠ Some "running" ∨
     details (system_status st) !! "reachability" ≠ Some "passed").

(** A snapshot is present and: the instance status is not "ok", or the
    state is not "running", or the 'reachability' detail is there with
    another value than "passed". *)
Definition some_value_deviates (l : list InstanceStatus) : Prop :=
  ∃ st rest, l = st :: rest ∧
    (status (instance_status st) ≠ Some "ok" ∨
     state_name st ≠ Some "running" ∨
     ∃ r, details (system_status st) !! "reachability" = Some r ∧ r ≠ "passed").

(** A snapshot is present, the two attributes are as required, and the
    details of the system status have no 'reachability' entry. *)
Definition reachability_missing (l : list InstanceStatus) : Prop :=
  ∃ st rest, l = st :: rest ∧
    status (instance_status st) = Some "ok" ∧
    state_name st = Some "running" ∧
    details (system_status st) !! "reachability" = None.

(** ** The runs of the loop

    [loop_run env conn ids interval repeat count n status_ ext o]: entered with
    [count], after [n] status queries and with [status_] the last answer,
    the loop [while (count < repeat)] adds the events [ext] to the trace
    and ends with [o]. One constructor per way out of the loop body, and
    one for going round again. [while_loop_run] shows that these are the
    runs of [while_loop]. *)
Inductive loop_run (env : World) (conn : Connection) (ids : list string)
    (interval repeat : Z)
  : Z -> nat -> list InstanceStatus -> list event -> outcome bool -> Prop :=
| run_exhausted count n s :
    repeat <= count ->
    loop_run env conn ids interval repeat count n s [] (Return false)
| run_reachable count n s :
    count < repeat ->
    _is_instance_reachable s = Return true ->
    loop_run env conn ids interval repeat count n s
      [Evaluate s (Return true)] (Return true)
| run_evaluate_raises count n s e :
    count < repeat ->
    _is_instance_reachable s = Raise e ->
    loop_run env conn ids interval repeat count n s
      [Evaluate s (Raise e)] (Raise e)
| run_sleep_raises count n s msg :
    count < repeat ->
    _is_instance_reachable s = Return false ->
    time_sleep env interval = Some msg ->
    loop_run env conn ids interval repeat count n s
      [Evaluate s (Return false)] (Raise (SleepError msg))
| run_query_raises count n s msg :
    count < repeat ->
    _is_instance_reachable s = Return false ->
    time_sleep env interval = None ->
    conn ids n = Failure msg ->
    loop_run env conn ids interval repeat count n s
      [Evaluate s (Return false); Sleep interval; Query (Failure msg)]
      (Raise (BotoError msg))
| run_again count n s s' ext o :
    count < repeat ->
    _is_instance_reachable s = Return false ->
    time_sleep env interval = None ->
    conn ids n = Statuses s' ->
    loop_run env conn ids interval repeat (count + 1) (S n) s' ext o ->
    loop_run env conn ids interval repeat count n s
      (Evaluate s (Return false) :: Sleep interval :: Query (Statuses s') :: ext)
      o.

(** [conn] answers its queries number [n], ..., [n + k - 1] with
    snapshots that the evaluator finds unreachable. *)
Definition unreachable_from (conn : Connection) (ids : list string)
    (n k : nat) : Prop :=
  ∀ i, (n <= i < n + k)%nat →
    ∃ l, conn ids i = Statuses l ∧ _is_instance_reachable l = Return false.

(** The keys [check_health] connects with: both or none. *)
Definition keys_of (access secret : option string) : option (string * string) :=
  match access, secret with
  | Some a, Some s => Some (a, s)
  | _, _ => None
  end.

(** ** Providers used in the examples *)

(** A clock for the examples, that of a platform whose timeval counts
    the seconds on 32 bits: [time.sleep] returns for lengths from 0 to
    2^31 - 1 and raises IOError for the others. *)
Definition sleep_32 (secs : Z) : option string :=
  if (0 <=? secs) && (secs <? 2 ^ 31) then None
  else Some "[Errno 22] Invalid argument".

(** Every region is known and leads to [conn]. *)
Definition always (conn : Connection) : World :=
  mkWorld (fun _ _ => Connected conn) sleep_32.

(** The instance is pending at the first query and healthy from the
    second one on. *)
Definition pending_then_healthy : Connection :=
  fun _ n => match n with
             | O => Statuses [pending]
             | S _ => Statuses [healthy]
             end.

Definition always_healthy : Connection := fun _ _ => Statuses [healthy].

Definition always_pending : Connection := fun _ _ => Statuses [pending].

(** The provider fails at the second query. *)
Definition pending_then_failure : Connection :=
  fun _ n => match n with
             | O => Statuses [pending]
             | S _ => Failure "Request limit exceeded."
             end.

(** ** Measures and hypotheses used in further properties *)

(** The seconds slept in a trace. *)
Definition slept (t : list event) : Z :=
  foldr (fun e acc => match e with Sleep secs => secs + acc | _ => acc end) 0 t.

(** Seen from the loop, entered with the status [s] and after [n]
    queries: [s] and the next [k - 1] answers are unreachable and the
    answer after them is reachable ([k = 0]: [s] itself is reachable). *)
Definition reachable_after (conn : Connection) (ids : list string)
    (n : nat) (s : list InstanceStatus) (k : nat) : Prop :=
  match k with
  | O => _is_instance_reachable s = Return true
  | S k' =>
      _is_instance_reachable s = Return false ∧
      unreachable_from conn ids n k' ∧
      ∃ l, conn ids (n + k')%nat = Statuses l ∧
           _is_instance_reachable l = Return true
  end.

(** What [main] reports when [check_health] raised [e]. *)
Definition error_report (instance_id : string) (e : exn) : payload :=
  fail_json ("An error occurred while performing a health check on " +:+
             instance_id +:+ " | error: " +:+ str e).

(** No region is known. *)
Definition nowhere : World := mkWorld (fun _ _ => NoConnection) sleep_32.

Definition always_undetailed : Connection := fun _ _ => Statuses [undetailed].

(** * Proofs *)

(** ** The reachability rule *)

Lemma ne_str_false v s : ne_str v s = false ↔ v = Some s.
Proof.
  destruct v as [x|]; simpl.
  - rewrite bool_decide_eq_false. split.
    + intros H. f_equal. by destruct (decide (x = s)).
    + intros [= ->] H. by apply H.
  - split; discriminate.
Qed.

Lemma ne_str_true v s : ne_str v s = true ↔ v ≠ Some s.
Proof.
  rewrite <- ne_str_false. destruct (ne_str v s); split; congruence.
Qed.

(** The four ways through [_is_instance_reachable] on a non-empty list. *)
Lemma is_instance_reachable_cons st rest :
  (status (instance_status st) ≠ Some "ok" ∧
   _is_instance_reachable (st :: rest) = Return false) ∨
  (status (instance_status st) = Some "ok" ∧
   state_name st ≠ Some "running" ∧
   _is_instance_reachable (st :: rest) = Return false) ∨
  (status (instance_status st) = Some "ok" ∧
   state_name st = Some "running" ∧
   details (system_status st) !! "reachability" = None ∧
   _is_instance_reachable (st :: rest) = Raise (KeyError "reachability")) ∨
  (status (instance_status st) = Some "ok" ∧
   state_name st = Some "running" ∧
   ∃ r, details (system_status st) !! "reachability" = Some r ∧
        _is_instance_reachable (st :: rest) =
          Return (bool_decide (r = "passed"))).
Proof.
  unfold _is_instance_reachable.
  destruct (ne_str (status (instance_status st)) "ok") eqn:Hs.
  { left. by apply ne_str_true in Hs. }
  apply ne_str_false in Hs. right.
  destruct (ne_str (state_name st) "running") eqn:Hn.
  { left. by apply ne_str_true in Hn. }
  apply ne_str_false in Hn. right.
  destruct (details (system_status st) !! "reachability") as [r|] eqn:Hr.
  - right. repeat split; try done. exists r. split; [done|].
    destruct (decide (r = "passed")) as [->|Hne].
    + done.
    + rewrite (bool_decide_eq_true_2 _ Hne).
      by rewrite (bool_decide_eq_false_2 _ Hne).
  - left. done.
Qed.

Lemma is_instance_reachable_not_OutOfFuel l :
  _is_instance_reachable l ≠ OutOfFuel.
Proof.
  destruct l as [|st rest]; [done|].
  destruct (is_instance_reachable_cons st rest)
    as [[_ ->]|[(_ & _ & ->)|[(_ & _ & _ & ->)|(_ & _ & r & _ & ->)]]]; done.
Qed.

(** C4, as the claim has it, fails: in a running instance with status
    "ok" whose system status has no 'reachability' detail, one field
    deviates; the evaluator raises [KeyError] there, so it does not
    return false on every status list in which a field deviates. *)
Lemma is_instance_reachable_deviation_raises :
  some_field_deviates [undetailed] ∧
  _is_instance_reachable [undetailed] = Raise (KeyError "reachability") ∧
  ¬ (∀ l, l = [] ∨ some_field_deviates l →
          _is_instance_reachable l = Return false).
Proof.
  assert (some_field_deviates [undetailed]) as Hdev.
  { exists undetailed, []. split; [done|]. right. right. by vm_compute. }
  split; [done|]. split; [by vm_compute|].
  intros H. specialize (H [undetailed] (or_intror Hdev)). by vm_compute in H.
Qed.

(** C4, amended. The evaluator returns true if and only if a snapshot
    is present and the instance status is "ok", the state is "running"
    and the system reachability is "passed". It returns false on an empty
    status list, and on a snapshot whose instance status is not "ok",
    whose state is not "running", or whose 'reachability' detail is there
    with another value. A field deviates in these cases and in one more,
    where the evaluator raises KeyError('reachability') instead: status
    "ok", state "running" and no 'reachability' detail. *)
Theorem is_instance_reachable_iff (l : list InstanceStatus) :
  (_is_instance_reachable l = Return true ↔ all_three_hold l) ∧
  (l = [] ∨ some_value_deviates l → _is_instance_reachable l = Return false) ∧
  (reachability_missing l →
   _is_instance_reachable l = Raise (KeyError "reachability")) ∧
  (some_field_deviates l ↔ some_value_deviates l ∨ reachability_missing l).
Proof.
  split; [split|split; [|split; [|split]]].
  - destruct l as [|st rest]; [done|]. intros H.
    destruct (is_instance_reachable_cons st rest)
      as [[_ E]|[(_ & _ & E)|[(_ & _ & _ & E)|(Hs & Hn & r & Hr & E)]]];
      rewrite E in H; try done.
    exists st, rest. repeat split; try done.
    injection H as H. apply bool_decide_eq_true in H. by subst r.
  - intros (st & rest & -> & Hs & Hn & Hr).
    unfold _is_instance_reachable. by rewrite Hs, Hn, Hr.
  - intros [->|(st & rest & -> & Hdev)]; [done|].
    destruct (is_instance_reachable_cons st rest)
      as [[_ E]|[(_ & _ & E)|[(Hs & Hn & Hr & E)|(Hs & Hn & r & Hr & E)]]];
      try done.
    + destruct Hdev as [?|[?|(r & Hr' & _)]]; congruence.
    + destruct Hdev as [?|[?|(r' & Hr' & Hne)]]; try congruence.
      rewrite E. rewrite Hr in Hr'. injection Hr' as <-.
      by rewrite (bool_decide_eq_false_2 _ Hne).
  - intros (st & rest & -> & Hs & Hn & Hr).
    unfold _is_instance_reachable. by rewrite Hs, Hn, Hr.
  - intros (st & rest & -> & Hdev).
    destruct (decide (status (instance_status st) = Some "ok")) as [Hs|Hs];
      [|left; exists st, rest; by auto].
    destruct (decide (state_name st = Some "running")) as [Hn|Hn];
      [|left; exists st, rest; by auto].
    destruct (details (system_status st) !! "reachability") as [r|] eqn:Hr.
    + left. exists st, rest. split; [done|]. right. right. exists r.
      split; [done|]. destruct Hdev as [?|[?|?]]; congruence.
    + right. by exists st, rest.
  - intros [(st & rest & -> & Hdev)|(st & rest & -> & Hs & Hn & Hr)];
      exists st, rest; (split; [done|]).
    + destruct Hdev as [?|[?|(r & Hr & Hne)]]; [by left|by right; left|].
      right. right. rewrite Hr. congruence.
    + right. right. by rewrite Hr.
Qed.

Lemma is_instance_reachable_iff_witness :
  _is_instance_reachable [healthy] = Return true ∧
  _is_instance_reachable [pending; healthy] = Return false ∧
  _is_instance_reachable [undetailed; healthy] =
  Raise (KeyError "reachability").
Proof.
  split; [|split].
  - apply (is_instance_reachable_iff [healthy]).
    exists healthy, []. by vm_compute.
  - apply (is_instance_reachable_iff [pending; healthy]). right.
    exists pending, [healthy]. split; [done|]. left. by vm_compute.
  - apply (is_instance_reachable_iff [undetailed; healthy]).
    exists undetailed, [healthy]. by vm_compute.
Defined.

(** C5, as the claim has it, fails: on a running instance with status
    "ok" whose system status has no 'reachability' detail, the evaluator
    raises [KeyError] and does not return false. *)
Lemma is_instance_reachable_undetailed_raises :
  details (system_status undetailed) !! "reachability" = None ∧
  _is_instance_reachable [undetailed] = Raise (KeyError "reachability") ∧
  _is_instance_reachable [undetailed] ≠ Return false.
Proof. by vm_compute. Qed.

(** C5, amended. The evaluator is a total function of the status list:
    it returns a boolean or raises KeyError('reachability'), and nothing
    else. It raises exactly when a snapshot is present, the instance
    status is "ok", the state is "running" and the details of the system
    status have no 'reachability' entry. An instance status or a state
    name that is missing is a failing condition: the result is false. *)
Theorem is_instance_reachable_total (l : list InstanceStatus) :
  ((∃ b, _is_instance_reachable l = Return b) ∨
   _is_instance_reachable l = Raise (KeyError "reachability")) ∧
  ((∃ e, _is_instance_reachable l = Raise e) ↔ reachability_missing l) ∧
  (∀ st rest, l = st :: rest →
     status (instance_status st) = None ∨ state_name st = None →
     _is_instance_reachable l = Return false).
Proof.
  destruct l as [|st rest].
  { split; [left; by exists false|]. split; [|done].
    split; [by intros [e ?]|by intros (? & ? & ? & _)]. }
  destruct (is_instance_reachable_cons st rest)
    as [[Hs E]|[(Hs & Hn & E)|[(Hs & Hn & Hr & E)|(Hs & Hn & r & Hr & E)]]];
    rewrite E.
  - split; [left; by eexists|]. split.
    + split; [by intros [e ?]|]. intros (? & ? & [= <- <-] & ? & _). done.
    + done.
  - split; [left; by eexists|]. split.
    + split; [by intros [e ?]|]. intros (? & ? & [= <- <-] & _ & ? & _). done.
    + done.
  - split; [by right|]. split.
    + split; [|by eexists]. intros _. by exists st, rest.
    + intros ? ? [= <- <-] [?|?]; congruence.
  - split; [left; by eexists|]. split.
    + split; [by intros [e ?]|].
      intros (? & ? & [= <- <-] & _ & _ & ?). congruence.
    + intros ? ? [= <- <-] [?|?]; congruence.
Qed.

Lemma is_instance_reachable_total_witness :
  _is_instance_reachable
    [mkInstanceStatus None (mkStatus (Some "ok") passed) (mkStatus None ∅)]
  = Return false.
Proof.
  eapply is_instance_reachable_total; [reflexivity|]. by right.
Defined.

(** ** Counting events *)

Lemma count_events_app p t1 t2 :
  count_events p (t1 ++ t2) = (count_events p t1 + count_events p t2)%nat.
Proof. unfold count_events. by rewrite List.filter_app, length_app. Qed.

Lemma count_events_cons p e t :
  count_events p (e :: t) =
  ((if p e then 1 else 0) + count_events p t)%nat.
Proof. unfold count_events. simpl. by destruct (p e). Qed.

Lemma queries_snoc_query t r : queries (t ++ [Query r]) = S (queries t).
Proof.
  unfold queries. rewrite count_events_app. unfold count_events. simpl. lia.
Qed.

Lemma queries_snoc_evaluate t l r : queries (t ++ [Evaluate l r]) = queries t.
Proof.
  unfold queries. rewrite count_events_app. unfold count_events. simpl. lia.
Qed.

Lemma queries_snoc_sleep t secs : queries (t ++ [Sleep secs]) = queries t.
Proof.
  unfold queries. rewrite count_events_app. unfold count_events. simpl. lia.
Qed.

(** ** The loop and its runs *)

Lemma while_loop_eq env fuel conn instance_id interval repeat count s :
  while_loop env fuel conn instance_id interval repeat count s =
  if count <? repeat then
    match fuel with
    | O => fun t => (OutOfFuel, t)
    | S fuel' =>
        reachable <- call_is_instance_reachable s ;;
        if reachable : bool then ret true
        else
          sleep env interval ;;;
          status_ <- get_all_instance_status conn [instance_id] ;;
          while_loop env fuel' conn instance_id interval repeat (count + 1) status_
    end
  else ret false.
Proof. by destruct fuel. Qed.

(** With [repeat - count] units of fuel the loop ends, and its run is
    one of [loop_run]. *)
Lemma while_loop_run env fuel conn instance_id interval repeat :
  ∀ count s t,
    (Z.to_nat (repeat - count) <= fuel)%nat →
    ∃ ext o,
      while_loop env fuel conn instance_id interval repeat count s t = (o, t ++ ext) ∧
      loop_run env conn [instance_id] interval repeat count (queries t) s ext o.
Proof.
  induction fuel as [|fuel IH]; intros count s t Hfuel;
    rewrite while_loop_eq; destruct (Z.ltb_spec count repeat) as [Hlt|Hge];
    try lia.
  - exists [], (Return false). rewrite app_nil_r. split; [done|].
    by constructor.
  - unfold bind at 1, call_is_instance_reachable.
    destruct (_is_instance_reachable s) as [[|]|e|] eqn:Hs.
    + exists [Evaluate s (Return true)], (Return true). split; [done|].
      by constructor.
    + unfold bind at 1, sleep.
      destruct (time_sleep env interval) as [m|] eqn:Hsl.
      { exists [Evaluate s (Return false)], (Raise (SleepError m)).
        split; [done|]. by constructor. }
      unfold bind at 1, get_all_instance_status.
      rewrite queries_snoc_sleep, queries_snoc_evaluate.
      destruct (conn [instance_id] (queries t)) as [s'|msg] eqn:Hq.
      * destruct (IH (count + 1) s'
                    (((t ++ [Evaluate s (Return false)]) ++ [Sleep interval])
                       ++ [Query (Statuses s')]))
          as (ext & o & Hrun & Hrel); [lia|].
        exists (Evaluate s (Return false) :: Sleep interval
                  :: Query (Statuses s') :: ext), o.
        split.
        -- rewrite Hrun. f_equal. by rewrite <- !app_assoc.
        -- rewrite queries_snoc_query, queries_snoc_sleep,
             queries_snoc_evaluate in Hrel.
           by constructor.
      * exists [Evaluate s (Return false); Sleep interval; Query (Failure msg)],
          (Raise (BotoError msg)).
        split; [by rewrite <- !app_assoc|]. by constructor.
    + exists [Evaluate s (Raise e)], (Raise e). split; [done|].
      by constructor.
    + by apply is_instance_reachable_not_OutOfFuel in Hs.
  - exists [], (Return false). rewrite app_nil_r. split; [done|].
    by constructor.
Qed.

(** Fuel beyond [repeat - count] changes nothing. *)
Lemma while_loop_fuel_enough env conn instance_id interval repeat :
  ∀ fuel fuel' count s t,
    (Z.to_nat (repeat - count) <= fuel)%nat → (fuel <= fuel')%nat →
    while_loop env fuel' conn instance_id interval repeat count s t =
    while_loop env fuel conn instance_id interval repeat count s t.
Proof.
  induction fuel as [|fuel IH]; intros fuel' count s t Hfuel Hle;
    rewrite !(while_loop_eq env _ conn); destruct (Z.ltb_spec count repeat);
    try lia; try done.
  destruct fuel' as [|fuel']; [lia|].
  unfold bind, call_is_instance_reachable.
  destruct (_is_instance_reachable s) as [[|]|e|]; try done.
  destruct (sleep env interval _) as [[[]|e|] t1]; try done.
  destruct (get_all_instance_status conn _ t1) as [[s'|e|] t2]; try done.
  apply IH; lia.
Qed.

Lemma loop_run_not_OutOfFuel env conn ids interval repeat count n s ext o :
  loop_run env conn ids interval repeat count n s ext o → o ≠ OutOfFuel.
Proof. induction 1; done. Qed.

(** Splits [pre] in an equation [e1 :: .. :: en :: ext = pre ++ e :: post]
    until the equation is about [ext], or absurd. *)
Ltac split_prefix pre :=
  repeat (destruct pre as [|? pre]; simplify_eq/=); try done.

(** A reachable evaluation is the last event of a run of the loop. *)
Lemma loop_run_reachable_last env conn ids interval repeat count n s ext o :
  loop_run env conn ids interval repeat count n s ext o →
  ∀ pre post l, ext = pre ++ Evaluate l (Return true) :: post →
    post = [] ∧ o = Return true.
Proof.
  induction 1 as [| | | | |count n s s' ext o _ _ _ _ _ IH];
    intros pre post l E.
  1-5: split_prefix pre.
  destruct pre as [|e1 [|e2 [|e3 pre]]]; simplify_eq/=. by eapply IH.
Qed.

(** A failed query is the last event of a run of the loop. *)
Lemma loop_run_failure_last env conn ids interval repeat count n s ext o :
  loop_run env conn ids interval repeat count n s ext o →
  ∀ pre post msg, ext = pre ++ Query (Failure msg) :: post →
    post = [] ∧ o = Raise (BotoError msg).
Proof.
  induction 1 as [| | | | |count n s s' ext o _ _ _ _ _ IH];
    intros pre post m E.
  1-5: split_prefix pre.
  destruct pre as [|e1 [|e2 [|e3 pre]]]; simplify_eq/=. by eapply IH.
Qed.

(** A run of the loop entered with [count] goes round at most
    [repeat - count] times, with at most one evaluation, one sleep and
    one query each time. *)
Lemma loop_run_bounds env conn ids interval repeat count n s ext o :
  loop_run env conn ids interval repeat count n s ext o →
  (queries ext <= Z.to_nat (repeat - count))%nat ∧
  (sleeps ext <= Z.to_nat (repeat - count))%nat ∧
  (evaluations ext <= Z.to_nat (repeat - count))%nat.
Proof.
  unfold queries, sleeps, evaluations.
  induction 1; rewrite ?count_events_cons; unfold count_events in *; simpl;
    lia.
Qed.

(** When every answer is unreachable the loop goes round
    [repeat - count] times and evaluates, sleeps and queries once each
    time. *)
Lemma loop_run_all_unreachable env conn ids interval repeat count n s ext o :
  loop_run env conn ids interval repeat count n s ext o →
  time_sleep env interval = None →
  _is_instance_reachable s = Return false →
  unreachable_from conn ids n (Z.to_nat (repeat - count)) →
  o = Return false ∧
  queries ext = Z.to_nat (repeat - count) ∧
  sleeps ext = Z.to_nat (repeat - count) ∧
  evaluations ext = Z.to_nat (repeat - count).
Proof.
  unfold queries, sleeps, evaluations.
  induction 1 as [| | | |count n s msg Hlt _ _ Hq
                  |count n s s' ext o Hlt _ _ Hq _ IH];
    intros Hint Hs Hall; try congruence; try lia.
  - unfold count_events. simpl. split; [done|]. lia.
  - destruct (Hall n) as (l & Hl & _); [lia|]. congruence.
  - destruct (Hall n) as (l & Hl & Hun); [lia|].
    rewrite Hq in Hl. injection Hl as <-.
    destruct IH as (-> & Hq' & Hs' & He'); [done|done| |].
    { intros i Hi. apply Hall. lia. }
    rewrite !count_events_cons. simpl. split; [done|]. lia.
Qed.

(** ** [check_health] *)

Lemma check_health_fuel_eq env fuel instance_id region interval repeat
    access secret :
  check_health_fuel env fuel instance_id region interval repeat access secret =
  (conn <- connect env region (keys_of access secret) ;;
   match conn with
   | None => raise (PyException "Couldn't connect to AWS. Check the region name")
   | Some conn =>
       status_ <- get_all_instance_status conn [instance_id] ;;
       while_loop env fuel conn instance_id interval repeat 0 status_
   end).
Proof. unfold check_health_fuel. by destruct access, secret. Qed.

(** The runs of [check_health], from an empty trace. *)
Lemma check_health_run env instance_id region interval repeat access secret :
  match connect_to_region env region (keys_of access secret) with
  | ConnectFailure msg =>
      check_health env instance_id region interval repeat access secret [] =
      (Raise (BotoError msg), [])
  | NoConnection =>
      check_health env instance_id region interval repeat access secret [] =
      (Raise (PyException "Couldn't connect to AWS. Check the region name"), [])
  | Connected conn =>
      match conn [instance_id] O with
      | Failure msg =>
          check_health env instance_id region interval repeat access secret [] =
          (Raise (BotoError msg), [Query (Failure msg)])
      | Statuses s =>
          ∃ ext o,
            check_health env instance_id region interval repeat access secret [] =
            (o, Query (Statuses s) :: ext) ∧
            loop_run env conn [instance_id] interval repeat 0 1 s ext o
      end
  end.
Proof.
  unfold check_health. rewrite check_health_fuel_eq.
  unfold bind at 1, connect.
  destruct (connect_to_region env region (keys_of access secret)) as [conn| |msg]; try done.
  unfold ret, bind, get_all_instance_status. simpl.
  change (queries []) with O.
  destruct (conn [instance_id] O) as [s|msg] eqn:Hq; try done.
  destruct (while_loop_run env (Z.to_nat repeat) conn instance_id interval repeat
              0 s [Query (Statuses s)]) as (ext & o & Hrun & Hrel).
  { by rewrite Z.sub_0_r. }
  exists ext, o. split; [done|]. exact Hrel.
Qed.

(** [check_health] ends, by returning or by raising, and fuel beyond
    [repeat] changes nothing. *)
Lemma check_health_fuel_enough env fuel instance_id region interval repeat
    access secret t :
  (Z.to_nat repeat <= fuel)%nat →
  check_health_fuel env fuel instance_id region interval repeat access secret t =
  check_health env instance_id region interval repeat access secret t.
Proof.
  intros Hfuel. unfold check_health. rewrite !check_health_fuel_eq.
  unfold bind, connect.
  destruct (connect_to_region env region (keys_of access secret)) as [conn| |msg]; try done.
  unfold ret. destruct (get_all_instance_status conn _ t) as [[s|e|] t1];
    try done.
  apply while_loop_fuel_enough; [|done]. by rewrite Z.sub_0_r.
Qed.

Lemma check_health_not_OutOfFuel env instance_id region interval repeat
    access secret :
  (check_health env instance_id region interval repeat access secret []).1
  ≠ OutOfFuel.
Proof.
  pose proof (check_health_run env instance_id region interval repeat
                access secret) as H.
  destruct (connect_to_region env region (keys_of access secret)) as [conn| |msg];
    [|by rewrite H..].
  destruct (conn [instance_id] O) as [s|msg]; [|by rewrite H].
  destruct H as (ext & o & -> & Hrel). simpl.
  by eapply loop_run_not_OutOfFuel.
Qed.

(** When every status queried is unreachable, [check_health] returns
    false after [repeat + 1] queries, [repeat] sleeps and [repeat]
    evaluations: the status of the last query is not evaluated. *)
Lemma check_health_all_unreachable env conn instance_id region interval repeat
    access secret :
  0 <= repeat → time_sleep env interval = None →
  connect_to_region env region (keys_of access secret) = Connected conn →
  unreachable_from conn [instance_id] 0 (S (Z.to_nat repeat)) →
  ∃ t,
    check_health env instance_id region interval repeat access secret [] =
    (Return false, t) ∧
    queries t = S (Z.to_nat repeat) ∧
    sleeps t = Z.to_nat repeat ∧
    evaluations t = Z.to_nat repeat.
Proof.
  intros Hrep Hint Henv Hall.
  pose proof (check_health_run env instance_id region interval repeat
                access secret) as H.
  rewrite Henv in H. destruct (Hall O) as (s & Hq & Hs); [lia|].
  rewrite Hq in H. destruct H as (ext & o & Hrun & Hrel).
  apply loop_run_all_unreachable in Hrel as (-> & Hqs & Hsl & Hev);
    [|done|done|].
  - exists (Query (Statuses s) :: ext). split; [done|].
    unfold queries, sleeps, evaluations in *.
    rewrite !count_events_cons, Hqs, Hsl, Hev, Z.sub_0_r. simpl. done.
  - rewrite Z.sub_0_r. intros i Hi. apply Hall. lia.
Qed.

(** C1, on the code. With repeat=1 and interval=10, a first status
    "pending" and a second one fully healthy (the evaluator accepts it),
    [check_health] makes two queries and sleeps 10 seconds once, but
    returns false: the second status is never evaluated. *)
Theorem check_health_pending_then_healthy :
  _is_instance_reachable [healthy] = Return true ∧
  check_health (always pending_then_healthy) "i-123456" "us-east-1" 10 1
    None None [] =
  (Return false,
   [Query (Statuses [pending]); Evaluate [pending] (Return false);
    Sleep 10; Query (Statuses [healthy])]).
Proof. by vm_compute. Qed.

(** C2, on the code. With repeat=0 and a fully healthy instance,
    [check_health] makes one query, does not sleep, and returns false
    without evaluating the status. *)
Theorem check_health_repeat_0_healthy :
  _is_instance_reachable [healthy] = Return true ∧
  check_health (always always_healthy) "i-123456" "us-east-1" 10 0
    None None [] =
  (Return false, [Query (Statuses [healthy])]).
Proof. by vm_compute. Qed.

(** C3, on the code. With repeat=1 and an instance that stays pending,
    [check_health] queries twice and sleeps once, between the failed
    evaluation of the first status and the second query; it then returns
    false with one evaluation for two queries: the status of the last
    query is not evaluated, and the sleep came after the only evaluation. *)
Theorem check_health_always_pending :
  let r := check_health (always always_pending) "i-123456" "us-east-1" 5 1
             None None [] in
  r = (Return false,
       [Query (Statuses [pending]); Evaluate [pending] (Return false);
        Sleep 5; Query (Statuses [pending])]) ∧
  queries r.2 = 2%nat ∧ sleeps r.2 = 1%nat ∧ evaluations r.2 = 1%nat.
Proof. by vm_compute. Qed.

(** C6. In a run of [check_health], an evaluation that finds the
    instance reachable is the last event of the run: no query and no
    sleep follows it, whatever the attempts that remain, and the run
    returns true. *)
Theorem check_health_stops_when_reachable env instance_id region interval
    repeat access secret o t pre post l :
  check_health env instance_id region interval repeat access secret [] = (o, t) →
  t = pre ++ Evaluate l (Return true) :: post →
  post = [] ∧ o = Return true.
Proof.
  intros Hrun Ht.
  pose proof (check_health_run env instance_id region interval repeat
                access secret) as H.
  destruct (connect_to_region env region (keys_of access secret)) as [conn| |msg].
  - destruct (conn [instance_id] O) as [s|msg].
    + destruct H as (ext & o' & H & Hrel). rewrite H in Hrun.
      destruct pre as [|e pre]; simplify_eq/=.
      by eapply loop_run_reachable_last.
    + rewrite H in Hrun. split_prefix pre.
  - rewrite H in Hrun. split_prefix pre.
  - rewrite H in Hrun. split_prefix pre.
Qed.

Lemma check_health_stops_when_reachable_witness :
  check_health (always pending_then_healthy) "i-123456" "us-east-1" 10 3
    None None [] =
  (Return true,
   [Query (Statuses [pending]); Evaluate [pending] (Return false);
    Sleep 10; Query (Statuses [healthy])]
   ++ Evaluate [healthy] (Return true) :: []) ∧
  (@nil event = [] ∧ Return true = Return true).
Proof.
  split; [by vm_compute|].
  apply (check_health_stops_when_reachable (always pending_then_healthy)
           "i-123456" "us-east-1" 10 3 None None (Return true)
           ([Query (Statuses [pending]); Evaluate [pending] (Return false);
             Sleep 10; Query (Statuses [healthy])]
            ++ Evaluate [healthy] (Return true) :: [])
           [Query (Statuses [pending]); Evaluate [pending] (Return false);
            Sleep 10; Query (Statuses [healthy])] [] [healthy]).
  - by vm_compute.
  - reflexivity.
Defined.

(** C7. In a run of [check_health], a status query that raises a
    provider error is the last event of the run: no query and no sleep
    follows it, and the run ends by raising that error, not by returning
    a boolean. *)
Theorem check_health_propagates_provider_error env instance_id region interval
    repeat access secret o t pre post msg :
  check_health env instance_id region interval repeat access secret [] = (o, t) →
  t = pre ++ Query (Failure msg) :: post →
  post = [] ∧ o = Raise (BotoError msg).
Proof.
  intros Hrun Ht.
  pose proof (check_health_run env instance_id region interval repeat
                access secret) as H.
  destruct (connect_to_region env region (keys_of access secret)) as [conn| |msg'].
  - destruct (conn [instance_id] O) as [s|msg'].
    + destruct H as (ext & o' & H & Hrel). rewrite H in Hrun.
      destruct pre as [|e pre]; simplify_eq/=.
      by eapply loop_run_failure_last.
    + rewrite H in Hrun. split_prefix pre.
  - rewrite H in Hrun. split_prefix pre.
  - rewrite H in Hrun. split_prefix pre.
Qed.

Lemma check_health_propagates_provider_error_witness :
  check_health (always pending_then_failure) "i-123456" "us-east-1" 5 12
    None None [] =
  (Raise (BotoError "Request limit exceeded."),
   [Query (Statuses [pending]); Evaluate [pending] (Return false); Sleep 5]
   ++ Query (Failure "Request limit exceeded.") :: []) ∧
  (@nil event = [] ∧
   @Raise bool (BotoError "Request limit exceeded.") =
   Raise (BotoError "Request limit exceeded.")).
Proof.
  split; [by vm_compute|].
  apply (check_health_propagates_provider_error (always pending_then_failure)
           "i-123456" "us-east-1" 5 12 None None
           (Raise (BotoError "Request limit exceeded."))
           ([Query (Statuses [pending]); Evaluate [pending] (Return false);
             Sleep 5] ++ Query (Failure "Request limit exceeded.") :: [])
           [Query (Statuses [pending]); Evaluate [pending] (Return false);
            Sleep 5] [] "Request limit exceeded.").
  - by vm_compute.
  - reflexivity.
Defined.

(** C8. A run of [check_health] that returns, with repeat >= 0, has made
    at least one status query and at most repeat + 1. *)
Theorem check_health_queries_bounds env instance_id region interval repeat
    access secret b t :
  0 <= repeat →
  check_health env instance_id region interval repeat access secret [] =
  (Return b, t) →
  (1 <= queries t)%nat ∧ Z.of_nat (queries t) <= repeat + 1.
Proof.
  intros Hrep Hrun.
  pose proof (check_health_run env instance_id region interval repeat
                access secret) as H.
  destruct (connect_to_region env region (keys_of access secret)) as [conn| |msg];
    [|congruence..].
  destruct (conn [instance_id] O) as [s|msg]; [|congruence].
  destruct H as (ext & o & H & Hrel). rewrite H in Hrun.
  injection Hrun as -> <-.
  apply loop_run_bounds in Hrel as (Hq & _).
  unfold queries in *. rewrite count_events_cons. simpl. lia.
Qed.

Lemma check_health_queries_bounds_witness :
  0 <= 12 ∧
  (check_health (always always_pending) "i-123456" "us-east-1" 5 12
     None None []).1 = Return false ∧
  (1 <= queries (check_health (always always_pending) "i-123456" "us-east-1"
                   5 12 None None []).2)%nat ∧
  Z.of_nat (queries (check_health (always always_pending) "i-123456"
                       "us-east-1" 5 12 None None []).2) <= 12 + 1.
Proof.
  split; [lia|]. split; [by vm_compute|].
  apply (check_health_queries_bounds (always always_pending) "i-123456"
           "us-east-1" 5 12 None None false).
  - lia.
  - by vm_compute.
Defined.

(** C10. With repeat <= 0, negative values included, a run of
    [check_health] that connects and whose status query is answered
    consists of that one query: the evaluator is not called, nothing
    sleeps, and the run returns false whatever the status says. *)
Theorem check_health_nonpositive_repeat env conn instance_id region interval
    repeat access secret s :
  repeat <= 0 →
  connect_to_region env region (keys_of access secret) = Connected conn →
  conn [instance_id] O = Statuses s →
  let r := check_health env instance_id region interval repeat access secret []
  in
  r = (Return false, [Query (Statuses s)]) ∧
  queries r.2 = 1%nat ∧ evaluations r.2 = 0%nat ∧ sleeps r.2 = 0%nat.
Proof.
  intros Hrep Henv Hq.
  pose proof (check_health_run env instance_id region interval repeat
                access secret) as H.
  rewrite Henv, Hq in H. destruct H as (ext & o & H & Hrel).
  inversion Hrel; subst; try lia.
  simpl. by rewrite H.
Qed.

Lemma check_health_nonpositive_repeat_witness :
  _is_instance_reachable [healthy] = Return true ∧
  check_health (always always_healthy) "i-123456" "us-east-1" 10 (-3)
    None None [] =
  (Return false, [Query (Statuses [healthy])]).
Proof.
  split; [by vm_compute|].
  apply (check_health_nonpositive_repeat (always always_healthy) always_healthy
           "i-123456" "us-east-1" 10 (-3) None None [healthy]).
  - lia.
  - reflexivity.
  - reflexivity.
Defined.

(** ** [main] *)

(** C9. When boto is there and [check_health] returns, [main] leaves
    through [exit_json] or [fail_json]: for an unreachable instance,
    exit_json(changed=False, stdout=<unreachable message>) when
    fail_unreachable is false and fail_json(msg=<unreachable message>)
    when it is true; for a reachable instance,
    exit_json(changed=False, stdout=<reachable message>) whatever
    fail_unreachable is. *)
Theorem main_reports env p reachable t :
  check_health env (p_instance_id p) (p_region p) (p_interval p) (p_repeat p)
    (p_aws_access_key p) (p_aws_secret_key p) [] = (Return reachable, t) →
  main env true p [] =
  (Raise (SystemExit
     (if reachable
      then exit_json false
             ("The following instance is rechable " +:+ p_instance_id p)
      else if p_fail_unreachable p
      then fail_json
             ("The following instance isn't reachable: " +:+ p_instance_id p)
      else exit_json false
             ("The following instance is unreachable " +:+ p_instance_id p))),
   t).
Proof.
  intros Hrun. unfold main, try_except, bind. simpl. rewrite Hrun.
  by destruct reachable, (p_fail_unreachable p).
Qed.

Lemma main_reports_witness :
  check_health (always always_pending) "i-123456" "us-east-1" 10 1 None None []
  = (Return false,
     [Query (Statuses [pending]); Evaluate [pending] (Return false);
      Sleep 10; Query (Statuses [pending])]) ∧
  main (always always_pending) true
    (mkParams "i-123456" "us-east-1" 10 1 false None None) [] =
  (Raise (SystemExit
            (exit_json false "The following instance is unreachable i-123456")),
   [Query (Statuses [pending]); Evaluate [pending] (Return false);
    Sleep 10; Query (Statuses [pending])]).
Proof.
  split; [by vm_compute|].
  apply (main_reports (always always_pending)
           (mkParams "i-123456" "us-east-1" 10 1 false None None) false).
  by vm_compute.
Defined.

(** * Further properties *)

(** ** Helper lemmas *)

Lemma is_instance_reachable_true_inv l :
  _is_instance_reachable l = Return true → all_three_hold l.
Proof.
  destruct l as [|st rest]; [done|]. intros H.
  destruct (is_instance_reachable_cons st rest)
    as [[_ E]|[(_ & _ & E)|[(_ & _ & _ & E)|(Hs & Hn & r & Hr & E)]]];
    rewrite E in H; try done.
  exists st, rest. repeat split; try done.
  injection H as H. apply bool_decide_eq_true in H. by subst r.
Qed.

Lemma is_instance_reachable_raise_inv l e :
  _is_instance_reachable l = Raise e →
  e = KeyError "reachability" ∧ reachability_missing l.
Proof.
  destruct l as [|st rest]; [done|]. intros H.
  destruct (is_instance_reachable_cons st rest)
    as [[_ E]|[(_ & _ & E)|[(Hs & Hn & Hr & E)|(_ & _ & r & _ & E)]]];
    rewrite E in H; try done.
  injection H as <-. split; [done|]. by exists st, rest.
Qed.

Lemma is_instance_reachable_missing l :
  reachability_missing l →
  _is_instance_reachable l = Raise (KeyError "reachability").
Proof.
  intros (st & rest & -> & Hs & Hn & Hr).
  unfold _is_instance_reachable. by rewrite Hs, Hn, Hr.
Qed.

(** A run of the loop that returns true ends with the evaluation of the
    status of the last query, which the evaluator accepts. *)
Lemma loop_run_true_inv env conn ids interval repeat count n s ext o :
  loop_run env conn ids interval repeat count n s ext o →
  o = Return true →
  count < repeat ∧
  ∃ pre l, Query (Statuses s) :: ext =
           pre ++ [Query (Statuses l); Evaluate l (Return true)] ∧
           _is_instance_reachable l = Return true.
Proof.
  induction 1 as [| count n s Hlt Hs | | | |count n s s' ext o Hlt _ _ _ _ IH];
    intros Ho; try done.
  - split; [done|]. by exists [], s.
  - destruct (IH Ho) as (_ & pre & l & E & Hl). split; [done|].
    exists (Query (Statuses s) :: Evaluate s (Return false) :: Sleep interval
              :: pre), l.
    split; [|done]. simpl. by rewrite <- E.
Qed.

(** A run of the loop that returns false went round [repeat - count]
    times, and every evaluation in it gave false. *)
Lemma loop_run_false_inv env conn ids interval repeat count n s ext o :
  loop_run env conn ids interval repeat count n s ext o →
  o = Return false →
  queries ext = Z.to_nat (repeat - count) ∧
  sleeps ext = Z.to_nat (repeat - count) ∧
  evaluations ext = Z.to_nat (repeat - count) ∧
  ∀ l r, Evaluate l r ∈ ext → r = Return false.
Proof.
  unfold queries, sleeps, evaluations.
  induction 1 as [| | | | |count n s s' ext o Hlt _ _ _ _ IH];
    intros Ho; try done.
  - unfold count_events. simpl. repeat split; try lia.
    intros l r Hin. by apply elem_of_nil in Hin.
  - destruct (IH Ho) as (Hq & Hs & He & Hall).
    rewrite !count_events_cons. simpl. repeat split; try lia.
    intros l r Hin.
    apply elem_of_cons in Hin as [[= _ <-]|Hin]; [done|].
    apply elem_of_cons in Hin as [?|Hin]; [done|].
    apply elem_of_cons in Hin as [?|Hin]; [done|].
    by eapply Hall.
Qed.

(** In every run of the loop: as many sleeps as queries, each sleep of
    [interval] seconds, and between as many evaluations as queries and
    one more. *)
Lemma loop_run_invariants env conn ids interval repeat count n s ext o :
  loop_run env conn ids interval repeat count n s ext o →
  sleeps ext = queries ext ∧
  slept ext = interval * Z.of_nat (sleeps ext) ∧
  (queries ext <= evaluations ext <= S (queries ext))%nat.
Proof.
  unfold queries, sleeps, evaluations.
  induction 1 as [| | | | |count n s s' ext o _ _ _ _ _ (IHs & IHt & IHe)];
    rewrite ?count_events_cons; unfold count_events in *; simpl in *;
    lia.
Qed.

(** The exceptions a run of the loop ends with are caught by
    [except Exception]. *)
Lemma loop_run_raises_Exception env conn ids interval repeat count n s ext o :
  loop_run env conn ids interval repeat count n s ext o →
  ∀ e, o = Raise e → is_Exception e = true.
Proof.
  induction 1 as [| |count n s e Hlt Hs| | |count n s s' ext o _ _ _ _ _ IH];
    intros e' Ho; simplify_eq; try done.
  - by apply is_instance_reachable_raise_inv in Hs as [-> _].
  - by apply IH.
Qed.

(** If the answers are unreachable until one is reachable, and the loop
    may go round once more when it arrives, the run returns true. *)
Lemma loop_run_reachable_after env conn ids interval repeat count n s ext o :
  loop_run env conn ids interval repeat count n s ext o →
  time_sleep env interval = None →
  ∀ k, reachable_after conn ids n s k →
    count + Z.of_nat k < repeat →
    o = Return true ∧ queries ext = k ∧ sleeps ext = k ∧
    evaluations ext = S k.
Proof.
  unfold queries, sleeps, evaluations.
  induction 1 as [count n s Hge
                 |count n s Hlt Hs
                 |count n s e Hlt Hs
                 |count n s msg Hlt Hs Hneg
                 |count n s msg Hlt Hs _ Hq
                 |count n s s' ext o Hlt Hs _ Hq _ IH];
    intros Hint k Hk Hrep.
  - lia.
  - destruct k as [|k]; [done|]. destruct Hk as (Hs' & _). congruence.
  - destruct k as [|k]; [|destruct Hk as (Hs' & _)]; simpl in *; congruence.
  - congruence.
  - destruct k as [|k]; simpl in Hk; [congruence|].
    destruct Hk as (_ & Hun & l & Hl & _).
    destruct k as [|k].
    + rewrite Nat.add_0_r in Hl. congruence.
    + destruct (Hun n) as (l' & Hl' & _); [lia|]. congruence.
  - destruct k as [|k]; simpl in Hk; [congruence|].
    destruct Hk as (_ & Hun & l & Hl & Hlt').
    destruct (IH Hint k) as (-> & Hq' & Hs' & He'); [|lia|].
    + destruct k as [|k]; simpl.
      * rewrite Nat.add_0_r in Hl. congruence.
      * destruct (Hun n) as (l' & Hl' & Hun'); [lia|].
        rewrite Hq in Hl'. injection Hl' as <-. split; [done|].
        split; [intros i Hi; apply Hun; lia|].
        exists l. split; [|done]. rewrite <- Hl. f_equal. lia.
    + rewrite !count_events_cons. simpl. split; [done|]. lia.
Qed.

(** In a run of the loop, what is evaluated is the status of the query
    just before, and what is recorded is the evaluator's result. *)
Lemma loop_run_evaluates_last_answer env conn ids interval repeat count n s ext o :
  loop_run env conn ids interval repeat count n s ext o →
  ∀ pre l r post,
    Query (Statuses s) :: ext = pre ++ Evaluate l r :: post →
    r = _is_instance_reachable l ∧
    ∃ pre', pre = pre' ++ [Query (Statuses l)].
Proof.
  induction 1 as [count n s Hge
                 |count n s Hlt Hs
                 |count n s e Hlt Hs
                 |count n s msg Hlt Hs Hneg
                 |count n s msg Hlt Hs _ Hq
                 |count n s s' ext o Hlt Hs _ Hq _ IH];
    intros pre l r post E.
  1-5: destruct pre as [|e1 [|e2 [|e3 [|e4 pre]]]]; simplify_eq/=;
       try (by destruct pre); (split; [done|by exists []]).
  destruct pre as [|e1 [|e2 [|e3 pre]]]; simplify_eq/=.
  - split; [done|by exists []].
  - destruct (IH pre l r post) as (Hr & pre' & ->); [done|].
    split; [done|].
    by exists (Query (Statuses s) :: Evaluate s (Return false)
                 :: Sleep interval :: pre').
Qed.

(** The exceptions [check_health] raises are caught by
    [except Exception]. *)
Lemma check_health_raises_Exception env instance_id region interval repeat
    access secret e t :
  check_health env instance_id region interval repeat access secret [] =
  (Raise e, t) →
  is_Exception e = true.
Proof.
  intros Hrun.
  pose proof (check_health_run env instance_id region interval repeat
                access secret) as H.
  destruct (connect_to_region env region (keys_of access secret)) as [conn| |msg].
  - destruct (conn [instance_id] O) as [s|msg].
    + destruct H as (ext & o & H & Hrel). rewrite H in Hrun.
      injection Hrun as -> <-. by eapply loop_run_raises_Exception.
    + rewrite H in Hrun. by injection Hrun as <- <-.
  - rewrite H in Hrun. by injection Hrun as <- <-.
  - rewrite H in Hrun. by injection Hrun as <- <-.
Qed.

(** The run of [check_health] when the first reachable status is the
    answer number [k], with [k < repeat]. *)
Lemma check_health_reachable_at env conn instance_id region interval
    repeat access secret k l :
  time_sleep env interval = None →
  connect_to_region env region (keys_of access secret) = Connected conn →
  unreachable_from conn [instance_id] 0 k →
  conn [instance_id] k = Statuses l →
  _is_instance_reachable l = Return true →
  Z.of_nat k < repeat →
  ∃ t,
    check_health env instance_id region interval repeat access secret [] =
    (Return true, t) ∧
    queries t = S k ∧ sleeps t = k ∧ evaluations t = S k.
Proof.
  intros Hint Henv Hun Hl Hreach Hk.
  pose proof (check_health_run env instance_id region interval repeat
                access secret) as H.
  rewrite Henv in H.
  assert (∃ s, conn [instance_id] O = Statuses s ∧
               reachable_after conn [instance_id] 1 s k) as (s & Hq & Hafter).
  { destruct k as [|k].
    - exists l. by split.
    - destruct (Hun O) as (s & Hs & Hs'); [lia|]. exists s. split; [done|].
      simpl. split; [done|]. split.
      + intros i Hi. apply Hun. lia.
      + exists l. by split. }
  rewrite Hq in H. destruct H as (ext & o & Hrun & Hrel).
  apply (loop_run_reachable_after _ _ _ _ _ _ _ _ _ _ Hrel Hint k) in Hafter
    as (-> & Hqs & Hsl & Hev); [|lia].
  exists (Query (Statuses s) :: ext). split; [done|].
  unfold queries, sleeps, evaluations in *.
  rewrite !count_events_cons, Hqs, Hsl, Hev. done.
Qed.

(** What [main] does, by the outcome of [check_health]. *)
Lemma main_cases env p :
  match check_health env (p_instance_id p) (p_region p) (p_interval p)
          (p_repeat p) (p_aws_access_key p) (p_aws_secret_key p) [] with
  | (Return reachable, t) =>
      main env true p [] =
      (Raise (SystemExit
         (if negb reachable && p_fail_unreachable p
          then fail_json
                 ("The following instance isn't reachable: " +:+ p_instance_id p)
          else exit_json false
                 ("The following instance is " +:+
                  (if reachable then "rechable " else "unreachable ") +:+
                  p_instance_id p))), t)
  | (Raise e, t) =>
      main env true p [] =
      (Raise (SystemExit (error_report (p_instance_id p) e)), t)
  | (OutOfFuel, _) => False
  end.
Proof.
  pose proof (check_health_not_OutOfFuel env (p_instance_id p) (p_region p)
                (p_interval p) (p_repeat p) (p_aws_access_key p)
                (p_aws_secret_key p)) as Hfuel.
  pose proof (check_health_raises_Exception env (p_instance_id p) (p_region p)
                (p_interval p) (p_repeat p) (p_aws_access_key p)
                (p_aws_secret_key p)) as Hexn.
  unfold main, try_except, bind. simpl.
  destruct (check_health _ _ _ _ _ _ _ []) as [[reachable|e|] t]; [| |done].
  - by destruct reachable, (p_fail_unreachable p).
  - by rewrite (Hexn e t eq_refl).
Qed.

(** ** [_is_instance_reachable]: what it reads *)

(** X10. The evaluator reads three things only: the status of the
    instance status, the state name and the 'reachability' detail of the
    system status of the first element. Two status lists that agree on
    them get the same result, whatever their other elements, the status
    of the system status and the other details are. *)
Theorem is_instance_reachable_reads_three_fields st rest st' rest' :
  status (instance_status st) = status (instance_status st') →
  state_name st = state_name st' →
  details (system_status st) !! "reachability" =
  details (system_status st') !! "reachability" →
  _is_instance_reachable (st :: rest) = _is_instance_reachable (st' :: rest').
Proof.
  intros Hs Hn Hr. unfold _is_instance_reachable. by rewrite Hs, Hn, Hr.
Qed.

Lemma is_instance_reachable_reads_three_fields_witness :
  _is_instance_reachable [healthy] =
  _is_instance_reachable
    [mkInstanceStatus (Some "running") (mkStatus (Some "ok") ∅)
       (mkStatus (Some "impaired")
          (<["events" := "retirement"]> passed));
     pending].
Proof.
  apply is_instance_reachable_reads_three_fields; by vm_compute.
Defined.

(** ** [check_health]: what its results mean *)

(** X1. When [check_health] returns true, repeat is at least 1 and the
    run ended with the query of a status and its evaluation: that last
    status has instance status "ok", state "running" and system
    reachability "passed". *)
Theorem check_health_true_sound env instance_id region interval repeat
    access secret t :
  check_health env instance_id region interval repeat access secret [] =
  (Return true, t) →
  1 <= repeat ∧
  ∃ pre l, t = pre ++ [Query (Statuses l); Evaluate l (Return true)] ∧
           all_three_hold l.
Proof.
  intros Hrun.
  pose proof (check_health_run env instance_id region interval repeat
                access secret) as H.
  destruct (connect_to_region env region (keys_of access secret)) as [conn| |msg];
    [|congruence..].
  destruct (conn [instance_id] O) as [s|msg]; [|congruence].
  destruct H as (ext & o & H & Hrel). rewrite H in Hrun.
  injection Hrun as -> <-.
  apply loop_run_true_inv in Hrel as (Hlt & pre & l & E & Hl); [|done].
  split; [lia|]. exists pre, l. split; [done|].
  by apply is_instance_reachable_true_inv.
Qed.

Lemma check_health_true_sound_witness :
  check_health (always pending_then_healthy) "i-123456" "us-east-1" 10 3
    None None [] =
  (Return true,
   [Query (Statuses [pending]); Evaluate [pending] (Return false);
    Sleep 10; Query (Statuses [healthy]); Evaluate [healthy] (Return true)]) ∧
  1 <= 3 ∧
  ∃ pre l,
    [Query (Statuses [pending]); Evaluate [pending] (Return false);
     Sleep 10; Query (Statuses [healthy]); Evaluate [healthy] (Return true)] =
    pre ++ [Query (Statuses l); Evaluate l (Return true)] ∧
    all_three_hold l.
Proof.
  split; [by vm_compute|].
  apply (check_health_true_sound (always pending_then_healthy) "i-123456"
           "us-east-1" 10 3 None None
           [Query (Statuses [pending]); Evaluate [pending] (Return false);
            Sleep 10; Query (Statuses [healthy]);
            Evaluate [healthy] (Return true)]).
  by vm_compute.
Defined.

(** X2. When [check_health] returns false, it has made
    max(repeat, 0) + 1 queries, max(repeat, 0) sleeps and max(repeat, 0)
    evaluations, and every evaluation gave false. *)
Theorem check_health_false_counts env instance_id region interval repeat
    access secret t :
  check_health env instance_id region interval repeat access secret [] =
  (Return false, t) →
  queries t = S (Z.to_nat repeat) ∧
  sleeps t = Z.to_nat repeat ∧
  evaluations t = Z.to_nat repeat ∧
  ∀ l r, Evaluate l r ∈ t → r = Return false.
Proof.
  intros Hrun.
  pose proof (check_health_run env instance_id region interval repeat
                access secret) as H.
  destruct (connect_to_region env region (keys_of access secret)) as [conn| |msg];
    [|congruence..].
  destruct (conn [instance_id] O) as [s|msg]; [|congruence].
  destruct H as (ext & o & H & Hrel). rewrite H in Hrun.
  injection Hrun as -> <-.
  apply loop_run_false_inv in Hrel as (Hq & Hs & He & Hall); [|done].
  rewrite Z.sub_0_r in *. unfold queries, sleeps, evaluations in *.
  rewrite !count_events_cons, Hq, Hs, He. simpl. repeat split; try done.
  intros l r Hin. apply elem_of_cons in Hin as [?|Hin]; [done|].
  by eapply Hall.
Qed.

Lemma check_health_false_counts_witness :
  (check_health (always always_pending) "i-123456" "us-east-1" 5 12
     None None []).1 = Return false ∧
  queries (check_health (always always_pending) "i-123456" "us-east-1" 5 12
             None None []).2 = 13%nat ∧
  sleeps (check_health (always always_pending) "i-123456" "us-east-1" 5 12
            None None []).2 = 12%nat.
Proof.
  split; [by vm_compute|].
  destruct (check_health_false_counts (always always_pending) "i-123456"
              "us-east-1" 5 12 None None
              (check_health (always always_pending) "i-123456" "us-east-1"
                 5 12 None None []).2) as (Hq & Hs & _).
  - by vm_compute.
  - split; [exact Hq|exact Hs].
Defined.

(** X3. If [time.sleep(interval)] returns on the platform (it raises
    for a negative interval and for one that is too large), the
    connection is made, the
    first k answers are statuses the evaluator finds unreachable, the
    next one is a status it finds reachable, and k < repeat, then
    [check_health] returns true, after k + 1 queries, k sleeps and k + 1
    evaluations. *)
Theorem check_health_first_reachable env conn instance_id region interval
    repeat access secret k l :
  time_sleep env interval = None →
  connect_to_region env region (keys_of access secret) = Connected conn →
  unreachable_from conn [instance_id] 0 k →
  conn [instance_id] k = Statuses l →
  _is_instance_reachable l = Return true →
  Z.of_nat k < repeat →
  ∃ t,
    check_health env instance_id region interval repeat access secret [] =
    (Return true, t) ∧
    queries t = S k ∧ sleeps t = k ∧ evaluations t = S k.
Proof. apply check_health_reachable_at. Qed.

Lemma check_health_first_reachable_witness :
  ∃ t,
    check_health (always pending_then_healthy) "i-123456" "us-east-1" 5 12
      None None [] = (Return true, t) ∧
    queries t = 2%nat ∧ sleeps t = 1%nat ∧ evaluations t = 2%nat.
Proof.
  apply (check_health_first_reachable (always pending_then_healthy)
           pending_then_healthy "i-123456" "us-east-1" 5 12 None None 1
           [healthy]).
  - reflexivity.
  - reflexivity.
  - intros i Hi. assert (i = O) as -> by lia. exists [pending].
    by vm_compute.
  - reflexivity.
  - by vm_compute.
  - lia.
Defined.

(** X4. In every run of [check_health], however it ends: each query
    but the first comes after one sleep, every sleep lasts [interval]
    seconds, there are at most max(repeat, 0) sleeps and evaluations, and
    the evaluations are as many as the queries or one fewer. *)
Theorem check_health_trace_invariants env instance_id region interval repeat
    access secret :
  let t := (check_health env instance_id region interval repeat access
              secret []).2 in
  sleeps t = Nat.pred (queries t) ∧
  slept t = interval * Z.of_nat (sleeps t) ∧
  (sleeps t <= Z.to_nat repeat)%nat ∧
  (evaluations t <= Z.to_nat repeat)%nat ∧
  (evaluations t <= queries t <= S (evaluations t))%nat.
Proof.
  pose proof (check_health_run env instance_id region interval repeat
                access secret) as H.
  assert (∀ t : list event, t = [] ∨ (∃ msg, t = [Query (Failure msg)]) →
            sleeps t = Nat.pred (queries t) ∧
            slept t = interval * Z.of_nat (sleeps t) ∧
            (sleeps t <= Z.to_nat repeat)%nat ∧
            (evaluations t <= Z.to_nat repeat)%nat ∧
            (evaluations t <= queries t <= S (evaluations t))%nat) as Hshort.
  { intros t [->|[msg ->]];
      unfold queries, sleeps, evaluations, count_events, slept; simpl; lia. }
  destruct (connect_to_region env region (keys_of access secret)) as [conn| |msg].
  - destruct (conn [instance_id] O) as [s|msg].
    + destruct H as (ext & o & -> & Hrel). simpl.
      pose proof (loop_run_invariants _ _ _ _ _ _ _ _ _ _ Hrel)
        as (Hsq & Hsl & Hev).
      pose proof (loop_run_bounds _ _ _ _ _ _ _ _ _ _ Hrel) as (_ & Hbs & Hbe).
      rewrite Z.sub_0_r in *. unfold queries, sleeps, evaluations in *.
      rewrite !count_events_cons.
      change (slept (Query (Statuses s) :: ext)) with (slept ext).
      simpl. rewrite Hsl. unfold count_events in *. lia.
    + rewrite H. apply Hshort. right. by exists msg.
  - rewrite H. apply Hshort. by left.
  - rewrite H. apply Hshort. by left.
Qed.

(** X5. The keys are used only when both are given: with the access
    key or the secret key missing, [check_health] does what it does
    without any key. *)
Theorem check_health_lone_key_ignored env instance_id region interval repeat
    access secret :
  access = None ∨ secret = None →
  check_health env instance_id region interval repeat access secret =
  check_health env instance_id region interval repeat None None.
Proof.
  intros H. unfold check_health, check_health_fuel.
  destruct H as [->| ->]; [done|]. by destruct access.
Qed.

Lemma check_health_lone_key_ignored_witness :
  (@None string = None ∨ Some "wJalrXUtnFEMI" = @None string) ∧
  check_health (always always_healthy) "i-123456" "us-east-1" 5 1
    None (Some "wJalrXUtnFEMI") =
  check_health (always always_healthy) "i-123456" "us-east-1" 5 1 None None.
Proof.
  split; [by left|].
  apply (check_health_lone_key_ignored (always always_healthy) "i-123456"
           "us-east-1" 5 1 None (Some "wJalrXUtnFEMI")).
  by left.
Defined.

(** ** [main]: how it ends *)

(** X8. [main] always ends through [exit_json] or [fail_json], never by
    returning and never with an exception of its own; what it reports
    through [exit_json] has changed=False; and it makes no status query
    beyond those of [check_health] (none at all without boto). *)
Theorem main_always_exits env HAS_BOTO p :
  ∃ report,
    main env HAS_BOTO p [] =
    (Raise (SystemExit report),
     if HAS_BOTO
     then (check_health env (p_instance_id p) (p_region p) (p_interval p)
             (p_repeat p) (p_aws_access_key p) (p_aws_secret_key p) []).2
     else []) ∧
    match report with
    | exit_json changed _ => changed = false
    | fail_json _ => True
    end.
Proof.
  destruct HAS_BOTO.
  - pose proof (main_cases env p) as H.
    destruct (check_health _ _ _ _ _ _ _ []) as [[reachable|e|] t];
      [| |done]; rewrite H; eexists; (split; [reflexivity|]).
    + by destruct (negb reachable && p_fail_unreachable p).
    + done.
  - by exists (fail_json "boto required for this module").
Qed.

(** X7. When [check_health] raises, [main] reports a failure that
    names the instance and carries the text of the exception, whatever
    fail_unreachable is. *)
Theorem main_reports_error env p e t :
  check_health env (p_instance_id p) (p_region p) (p_interval p) (p_repeat p)
    (p_aws_access_key p) (p_aws_secret_key p) [] = (Raise e, t) →
  main env true p [] =
  (Raise (SystemExit
     (fail_json ("An error occurred while performing a health check on " +:+
                 p_instance_id p +:+ " | error: " +:+ str e))), t).
Proof.
  intros Hrun. pose proof (main_cases env p) as H. by rewrite Hrun in H.
Qed.

Lemma main_reports_error_witness :
  main (always pending_then_failure) true
    (mkParams "i-123456" "us-east-1" 5 12 false None None) [] =
  (Raise (SystemExit
     (fail_json "An error occurred while performing a health check on i-123456 | error: Request limit exceeded.")),
   [Query (Statuses [pending]); Evaluate [pending] (Return false); Sleep 5;
    Query (Failure "Request limit exceeded.")]).
Proof.
  apply (main_reports_error (always pending_then_failure)
           (mkParams "i-123456" "us-east-1" 5 12 false None None)
           (BotoError "Request limit exceeded.")).
  by vm_compute.
Defined.

(** X6. When boto knows no such region ([connect_to_region] gives
    None), [main] fails with the message "Couldn't connect to AWS. Check
    the region name" without any status query and without sleeping,
    whatever repeat and fail_unreachable are. *)
Theorem main_unknown_region env p :
  connect_to_region env (p_region p) (keys_of (p_aws_access_key p) (p_aws_secret_key p)) =
  NoConnection →
  main env true p [] =
  (Raise (SystemExit
     (fail_json ("An error occurred while performing a health check on " +:+
                 p_instance_id p +:+
                 " | error: Couldn't connect to AWS. Check the region name"))),
   []).
Proof.
  intros Henv. pose proof (main_cases env p) as H.
  pose proof (check_health_run env (p_instance_id p) (p_region p)
                (p_interval p) (p_repeat p) (p_aws_access_key p)
                (p_aws_secret_key p)) as Hrun.
  rewrite Henv in Hrun. by rewrite Hrun in H.
Qed.

Lemma main_unknown_region_witness :
  main nowhere true
    (mkParams "i-123456" "mars-north-1" 5 12 false None None) [] =
  (Raise (SystemExit
     (fail_json "An error occurred while performing a health check on i-123456 | error: Couldn't connect to AWS. Check the region name")),
   []).
Proof.
  by apply (main_unknown_region nowhere
              (mkParams "i-123456" "mars-north-1" 5 12 false None None)).
Defined.

(** X9. When the connection is made, repeat is at least 1 and the first
    status has instance status "ok" and state "running" but no
    'reachability' detail, [main] fails with the text of the KeyError
    after one query and one evaluation, whatever fail_unreachable is. *)
Theorem main_missing_reachability env conn p l :
  connect_to_region env (p_region p) (keys_of (p_aws_access_key p) (p_aws_secret_key p)) =
  Connected conn →
  conn [p_instance_id p] O = Statuses l →
  reachability_missing l →
  1 <= p_repeat p →
  main env true p [] =
  (Raise (SystemExit
     (fail_json ("An error occurred while performing a health check on " +:+
                 p_instance_id p +:+ " | error: 'reachability'"))),
   [Query (Statuses l); Evaluate l (Raise (KeyError "reachability"))]).
Proof.
  intros Henv Hq Hmiss Hrep. pose proof (main_cases env p) as H.
  pose proof (check_health_run env (p_instance_id p) (p_region p)
                (p_interval p) (p_repeat p) (p_aws_access_key p)
                (p_aws_secret_key p)) as Hrun.
  rewrite Henv, Hq in Hrun. destruct Hrun as (ext & o & Hrun & Hrel).
  apply is_instance_reachable_missing in Hmiss.
  rewrite Hrun in H.
  inversion Hrel; subst; try lia; try congruence.
  replace e with (KeyError "reachability") in * by congruence.
  exact H.
Qed.

Lemma main_missing_reachability_witness :
  main (always always_undetailed) true
    (mkParams "i-123456" "us-east-1" 5 12 false None None) [] =
  (Raise (SystemExit
     (fail_json "An error occurred while performing a health check on i-123456 | error: 'reachability'")),
   [Query (Statuses [undetailed]);
    Evaluate [undetailed] (Raise (KeyError "reachability"))]).
Proof.
  apply (main_missing_reachability (always always_undetailed) always_undetailed
           (mkParams "i-123456" "us-east-1" 5 12 false None None)
           [undetailed]).
  - reflexivity.
  - reflexivity.
  - exists undetailed, []. by vm_compute.
  - simpl. lia.
Defined.

(** X12. If [time.sleep(interval)] returns on the platform (it raises
    for a negative interval and for one that is too large), the
    connection is made, the
    first k answers are statuses the evaluator finds unreachable, the
    next one is a status it finds reachable, and k < repeat, then [main]
    reports exit_json(changed=False, stdout="The following instance is
    rechable <id>") after k + 1 queries and k sleeps, whatever
    fail_unreachable is. *)
Theorem main_reports_reachable env conn p k l :
  time_sleep env (p_interval p) = None →
  connect_to_region env (p_region p) (keys_of (p_aws_access_key p) (p_aws_secret_key p)) =
  Connected conn →
  unreachable_from conn [p_instance_id p] 0 k →
  conn [p_instance_id p] k = Statuses l →
  _is_instance_reachable l = Return true →
  Z.of_nat k < p_repeat p →
  ∃ t,
    main env true p [] =
    (Raise (SystemExit
       (exit_json false
          ("The following instance is rechable " +:+ p_instance_id p))), t) ∧
    queries t = S k ∧ sleeps t = k.
Proof.
  intros Hint Henv Hun Hl Hreach Hk.
  destruct (check_health_reachable_at env conn (p_instance_id p) (p_region p)
              (p_interval p) (p_repeat p) (p_aws_access_key p)
              (p_aws_secret_key p) k l Hint Henv Hun Hl Hreach Hk)
    as (t & Hrun & Hq & Hs & _).
  pose proof (main_cases env p) as H. rewrite Hrun in H.
  exists t. by rewrite H.
Qed.

Lemma main_reports_reachable_witness :
  ∃ t,
    main (always pending_then_healthy) true
      (mkParams "i-123456" "us-east-1" 5 12 true None None) [] =
    (Raise (SystemExit
       (exit_json false "The following instance is rechable i-123456")), t) ∧
    queries t = 2%nat ∧ sleeps t = 1%nat.
Proof.
  apply (main_reports_reachable (always pending_then_healthy)
           pending_then_healthy
           (mkParams "i-123456" "us-east-1" 5 12 true None None) 1 [healthy]).
  - reflexivity.
  - reflexivity.
  - intros i Hi. assert (i = O) as -> by lia. exists [pending].
    by vm_compute.
  - reflexivity.
  - by vm_compute.
  - simpl. lia.
Defined.

(** X11. In every run of [check_health], what is evaluated is the
    status that the query just before it returned, and never an older
    one. *)
Theorem check_health_evaluates_last_answer env instance_id region interval
    repeat access secret o t pre l r post :
  check_health env instance_id region interval repeat access secret [] = (o, t) →
  t = pre ++ Evaluate l r :: post →
  r = _is_instance_reachable l ∧
  ∃ pre', pre = pre' ++ [Query (Statuses l)].
Proof.
  intros Hrun Ht.
  pose proof (check_health_run env instance_id region interval repeat
                access secret) as H.
  destruct (connect_to_region env region (keys_of access secret)) as [conn| |msg].
  - destruct (conn [instance_id] O) as [s|msg].
    + destruct H as (ext & o' & H & Hrel). rewrite H in Hrun.
      injection Hrun as -> <-.
      by eapply loop_run_evaluates_last_answer.
    + rewrite H in Hrun. split_prefix pre.
  - rewrite H in Hrun. split_prefix pre.
  - rewrite H in Hrun. split_prefix pre.
Qed.

Lemma check_health_evaluates_last_answer_witness :
  Return true = _is_instance_reachable [healthy] ∧
  ∃ pre',
    [Query (Statuses [pending]); Evaluate [pending] (Return false);
     Sleep 10; Query (Statuses [healthy])] =
    pre' ++ [Query (Statuses [healthy])].
Proof.
  apply (check_health_evaluates_last_answer (always pending_then_healthy)
           "i-123456" "us-east-1" 10 3 None None (Return true)
           ([Query (Statuses [pending]); Evaluate [pending] (Return false);
             Sleep 10; Query (Statuses [healthy])]
            ++ Evaluate [healthy] (Return true) :: [])
           [Query (Statuses [pending]); Evaluate [pending] (Return false);
            Sleep 10; Query (Statuses [healthy])]
           [healthy] (Return true) []).
  - by vm_compute.
  - reflexivity.
Defined.
